(** * The expiring key-value cache of package [cache_manager]

    A shallow embedding of the Go type [Cache] and of its methods
    [Set], [Get], [Delete], [expiredKeys], [clearValues] and of one
    iteration of the sweeper loop [gC], followed by the properties of
    the cache that the specification states.

    Modelling decisions, all taken from the source:
    - [map[string]Value] is a finite map [gmap string Value];
    - [int64] and [time.Duration] are integers [Z]; the one place where
      the source computes on them, [time.Now().Add(d).UnixNano()], has
      its 64-bit wrap-around written out;
    - every method has a pointer receiver: it is a computation [Op A]
      that threads the cache and returns a result of type [A];
    - [time.Now()] is an input of the environment: every call site takes
      the instant it reads as an argument;
    - the reader/writer lock only orders the methods; one method runs
      from [Lock]/[RLock] to the deferred unlock without interleaving,
      which is what one application of an [Op] is. *)

From stdpp Require Import gmap strings list fin_maps.
From Stdlib Require Import ZArith Lia.

Open Scope Z_scope.

(** ** The parts of Go's [time] and [errors] packages the cache uses *)

Module time.

(** A wall-clock instant, as its exact count of nanoseconds since the
    Unix epoch. *)
Definition Time : Type := Z.

(** [time.Duration] is an [int64] count of nanoseconds. *)
Definition Duration : Type := Z.

Definition Millisecond : Duration := 1000000.

Definition int64_min : Z := - 2 ^ 63.
Definition int64_max : Z := 2 ^ 63 - 1.

(** Two's complement reduction of an integer to [int64]. *)
Definition int64_wrap (z : Z) : Z := (z + 2 ^ 63) mod 2 ^ 64 - 2 ^ 63.

(** [t.Add(d)]: the instant [d] nanoseconds after [t]. *)
Definition Add (t : Time) (d : Duration) : Time := t + d.

(** [t.UnixNano()]: the nanoseconds since the epoch as an [int64];
    outside the years 1678 to 2262 the multiplication and the sum of
    the Go implementation wrap around. *)
Definition UnixNano (t : Time) : Z := int64_wrap t.

End time.

Module errors.

(** Go's [error] values built by [errors.New]; [nil] is [None] of
    [option error]. *)
Inductive error : Type := New (text : string).

End errors.

(** ** The data model *)

Module cache_manager.

Import time.

Record Value : Type := mkValue {
  CreateTime : Time;
  Expiration : Z;
  Value_ : string
}.

(** The model covers the caches that [CacheCreate] returns: it
    allocates the map and no method assigns [c.data], so the map stays
    allocated and the assignment of [Set] cannot fail.  (On the zero
    value [Cache{}], whose map is [nil], [Set] would panic.) *)
Record Cache : Type := mkCache {
  defaultExpiration : Duration;
  cleanupTime : Duration;
  data : gmap string Value
}.

(** *** Computations on the cache behind the pointer receiver *)

Definition Op (A : Type) : Type := Cache → A * Cache.

Definition ret {A : Type} (a : A) : Op A := λ c, (a, c).

Definition bind {A B : Type} (m : Op A) (k : A → Op B) : Op B :=
  λ c, let (a, c') := m c in k a c'.

Notation "'let*' x ':=' m 'in' k" := (bind m (λ x, k))
  (at level 10, x name, m at level 100, k at level 200, only parsing).
Notation "m '>>' k" := (bind m (λ _, k))
  (at level 61, left associativity, only parsing).

(** The result and the final cache of a computation. *)
Definition eval {A : Type} (m : Op A) (c : Cache) : A := fst (m c).
Definition exec {A : Type} (m : Op A) (c : Cache) : Cache := snd (m c).

(** Reading the fields [c.defaultExpiration] and [c.data]. *)
Definition get_defaultExpiration : Op Duration := λ c, (defaultExpiration c, c).
Definition get_data : Op (gmap string Value) := λ c, (data c, c).

(** [c.data[key] = v] and [delete(c.data, key)]: the two writes of the
    package, both in place on the map of the cache. *)
Definition map_assign (key : string) (v : Value) : Op unit :=
  λ c, (tt, mkCache (defaultExpiration c) (cleanupTime c) (<[key := v]> (data c))).
Definition map_delete (key : string) : Op unit :=
  λ c, (tt, mkCache (defaultExpiration c) (cleanupTime c) (delete key (data c))).

(** *** The methods *)

(** [CacheCreate]: a cache with an empty map.  The goroutine it starts
    when [cleanupTime > 0] runs [gC_tick] below once per period. *)
Definition CacheCreate (defaultExpiration cleanupTime : Duration) : Cache :=
  mkCache defaultExpiration cleanupTime ∅.

(** [Set].  [now_exp] is what [time.Now()] reads in the computation of
    the expiration, [now_create] what it reads for [CreateTime]. *)
Definition Set_ (key value : string) (duration : Duration)
    (now_exp now_create : Time) : Op unit :=
  let* dflt := get_defaultExpiration in
  let duration := if duration =? 0 then dflt else duration in
  let expiration := if 0 <? duration then UnixNano (Add now_exp duration) else 0 in
  map_assign key (mkValue now_create expiration value).

(** [Get].  [now] is what [time.Now()] reads in the expiration test. *)
Definition Get (key : string) (now : Time) : Op (string * bool) :=
  let* d := get_data in
  match d !! key with
  | None => ret (""%string, false)
  | Some item =>
      if (0 <? Expiration item) && (Expiration item <? UnixNano now)
      then ret (""%string, false)
      else ret (Value_ item, true)
  end.

Definition Delete (key : string) : Op (option errors.error) :=
  let* d := get_data in
  match d !! key with
  | None => ret (Some (errors.New "error: Key not found"))
  | Some _ => map_delete key >> ret None
  end.

(** *** The sweeper *)

(** [range c.data] visits every entry once, in an order the Go runtime
    chooses: some rearrangement of the entries of the map. *)
Record RangeOrder : Type := mkRangeOrder {
  visit :> list (string * Value) → list (string * Value);
  visit_perm : ∀ l, visit l ≡ₚ l
}.

(** The loop of [expiredKeys] over the entries still to visit, with
    the slice [keys] built so far.  [time.Now()] is called inside the
    loop: [clock k] is what it reads when the entry of [k] is tested. *)
Fixpoint expiredKeys_loop (clock : string → Time)
    (entries : list (string * Value)) (keys : list string) : list string :=
  match entries with
  | [] => keys
  | (k, i) :: entries =>
      if (0 <? Expiration i) && (Expiration i <? UnixNano (clock k))
      then expiredKeys_loop clock entries (keys ++ [k])
      else expiredKeys_loop clock entries keys
  end.

Definition expiredKeys (order : RangeOrder) (clock : string → Time)
    : Op (list string) :=
  let* d := get_data in
  ret (expiredKeys_loop clock (order (map_to_list d)) []).

Fixpoint clearValues (keys : list string) : Op unit :=
  match keys with
  | [] => ret tt
  | k :: keys => map_delete k >> clearValues keys
  end.

(** One iteration of the loop of [gC], after the wait: the map of a
    cache is never [nil], so the iteration does not return. *)
Definition gC_tick (order : RangeOrder) (clock : string → Time) : Op unit :=
  let* keys := expiredKeys order clock in
  if negb (length keys =? 0)%nat then clearValues keys else ret tt.

(** Any number of iterations, each with its own order and clock. *)
Fixpoint gC_ticks (ticks : list (RangeOrder * (string → Time))) : Op unit :=
  match ticks with
  | [] => ret tt
  | (order, clock) :: ticks => gC_tick order clock >> gC_ticks ticks
  end.

(** *** Vocabulary of the specification *)

(** The entry has a finite expiration that the instant [now] is
    strictly past. *)
Definition expired_at (now : Time) (i : Value) : Prop :=
  0 < Expiration i ∧ Expiration i < UnixNano now.

Definition never_expires (i : Value) : Prop := Expiration i ≤ 0.

(** The duration that [Set] ends up using. *)
Definition effective_duration (c : Cache) (duration : Duration) : Duration :=
  if duration =? 0 then defaultExpiration c else duration.

Definition KeyNotFound : errors.error := errors.New "error: Key not found".

Definition order_id : RangeOrder := mkRangeOrder id (λ l, reflexivity l).
Definition order_reverse : RangeOrder := mkRangeOrder reverse reverse_Permutation.

(** *** The scenarios of the specification's tests *)

(** An instant of the year 2027, for the clock of the scenarios. *)
Definition T0 : Time := 1800000000000000000.

(** [Set("a", "1", 10ms)] on a fresh cache, the clock reading [T0]. *)
Definition cache_a_10ms : Cache :=
  exec (Set_ "a" "1" (10 * Millisecond) T0 T0) (CacheCreate 0 0).

(** A fresh cache with [defaultExpiration = 20ms], then [Set("a", "1", 0)]. *)
Definition cache_a_default_20ms : Cache :=
  exec (Set_ "a" "1" 0 T0 T0) (CacheCreate (20 * Millisecond) 0).

(** Three entries written at [T0]: "a" for 10ms, "b" with a negative
    duration, "c" for 30ms. *)
Definition cache_abc : Cache :=
  exec (Set_ "a" "1" (10 * Millisecond) T0 T0 >>
        Set_ "b" "2" (-1) T0 T0 >>
        Set_ "c" "3" (30 * Millisecond) T0 T0)
       (CacheCreate 0 (10 * Millisecond)).

(** The reading of liveness that asks the expiration of every entry
    [Get] returns to lie strictly after the instant of the test. *)
Definition Get_found_strictly_live : Prop :=
  ∀ (c : Cache) (key : string) (now : Time) (v : string),
    eval (Get key now) c = (v, true) →
    ∃ item, data c !! key = Some item ∧ Value_ item = v ∧
      (Expiration item ≤ 0 ∨ UnixNano now < Expiration item).

#[global] Instance expired_at_dec now i : Decision (expired_at now i).
Proof. unfold expired_at. apply _. Defined.

(** The entry [e] of the map is found expired when the sweeper tests it. *)
Definition swept (clock : string → Time) (e : string * Value) : Prop :=
  expired_at (clock e.1) e.2.

#[global] Instance swept_dec clock e : Decision (swept clock e).
Proof. unfold swept. apply _. Defined.

(** *** Callers *)

(** One call of a goroutine on the shared cache: a method of the
    package, or an iteration of the sweeper.  The lock makes each of
    them run alone, so that a history of the cache is a list of calls. *)
Inductive call : Type :=
| call_Set (key value : string) (duration : Duration) (now_exp now_create : Time)
| call_Get (key : string) (now : Time)
| call_Delete (key : string)
| call_gC (order : RangeOrder) (clock : string → Time).

Definition do_call (a : call) : Op unit :=
  match a with
  | call_Set key value duration now_exp now_create =>
      Set_ key value duration now_exp now_create
  | call_Get key now => Get key now >> ret tt
  | call_Delete key => Delete key >> ret tt
  | call_gC order clock => gC_tick order clock
  end.

Fixpoint run (calls : list call) : Op unit :=
  match calls with
  | [] => ret tt
  | a :: calls => do_call a >> run calls
  end.

(** The call writes under the key [k]: it is a [Set] or a [Delete] of [k]. *)
Definition writes_key (k : string) (a : call) : Prop :=
  match a with
  | call_Set key _ _ _ _ => key = k
  | call_Delete key => key = k
  | call_Get _ _ | call_gC _ _ => False
  end.

(** The entry that [Set] writes on a cache whose default expiration is
    [dflt]. *)
Definition written (dflt : Duration) (value : string) (duration : Duration)
    (now_exp now_create : Time) : Value :=
  let duration := if duration =? 0 then dflt else duration in
  mkValue now_create
    (if 0 <? duration then UnixNano (Add now_exp duration) else 0) value.

(** An iteration of [gC] during which another goroutine calls [Set]:
    [expiredKeys] gives the read lock back when it returns and
    [clearValues] takes the write lock afterwards, so the [Set] can run
    between the two. *)
Definition gC_tick_with_Set (order : RangeOrder) (clock : string → Time)
    (key value : string) (duration : Duration) (now_exp now_create : Time)
    : Op unit :=
  let* keys := expiredKeys order clock in
  Set_ key value duration now_exp now_create >>
  (if negb (length keys =? 0)%nat then clearValues keys else ret tt).

End cache_manager.

Import time cache_manager.

(** ** Lemmas on the model *)

Section int64.

Lemma int64_wrap_id z : int64_min ≤ z ≤ int64_max → int64_wrap z = z.
Proof.
  unfold int64_min, int64_max, int64_wrap. intros Hz.
  rewrite Z.mod_small; lia.
Qed.

Lemma int64_wrap_range z : int64_min ≤ int64_wrap z ≤ int64_max.
Proof.
  unfold int64_min, int64_max, int64_wrap.
  pose proof (Z.mod_pos_bound (z + 2 ^ 63) (2 ^ 64)). lia.
Qed.

Lemma UnixNano_in_range t : int64_min ≤ t ≤ int64_max → UnixNano t = t.
Proof. apply int64_wrap_id. Qed.

End int64.

Section expiration_test.

(** The boolean test that [Get] and [expiredKeys] both inline. *)
Lemma expired_test_true now i :
  (0 <? Expiration i) && (Expiration i <? UnixNano now) = true ↔ expired_at now i.
Proof. unfold expired_at. rewrite andb_true_iff, !Z.ltb_lt. done. Qed.

Lemma expired_test_false now i :
  (0 <? Expiration i) && (Expiration i <? UnixNano now) = false ↔ ¬ expired_at now i.
Proof. rewrite <- expired_test_true. destruct (_ && _); naive_solver. Qed.

Lemma never_expires_not_expired now i : never_expires i → ¬ expired_at now i.
Proof. unfold never_expires, expired_at. lia. Qed.

End expiration_test.

Section methods.

Implicit Types (c : Cache) (key value : string) (i item : Value).

Lemma Get_exec key now c : exec (Get key now) c = c.
Proof.
  unfold exec, Get, bind, get_data, ret.
  destruct (data c !! key) as [item|]; [|done].
  by destruct (_ && _).
Qed.

Lemma Get_absent key now c :
  data c !! key = None → eval (Get key now) c = (""%string, false).
Proof. intros H. unfold eval, Get, bind, get_data, ret. by rewrite H. Qed.

Lemma Get_expired key now c item :
  data c !! key = Some item → expired_at now item →
  eval (Get key now) c = (""%string, false).
Proof.
  intros H He%expired_test_true.
  unfold eval, Get, bind, get_data, ret. by rewrite H, He.
Qed.

Lemma Get_live key now c item :
  data c !! key = Some item → ¬ expired_at now item →
  eval (Get key now) c = (Value_ item, true).
Proof.
  intros H He%expired_test_false.
  unfold eval, Get, bind, get_data, ret. by rewrite H, He.
Qed.

Lemma Get_found_inv key now c v :
  eval (Get key now) c = (v, true) →
  ∃ item, data c !! key = Some item ∧ Value_ item = v ∧ ¬ expired_at now item.
Proof.
  unfold eval, Get, bind, get_data, ret.
  destruct (data c !! key) as [item|] eqn:H; [|done].
  destruct (_ && _) eqn:He; [done|].
  apply expired_test_false in He. intros [= <-]. eauto.
Qed.

Lemma Set_exec key value duration now_exp now_create c :
  exec (Set_ key value duration now_exp now_create) c =
  mkCache (defaultExpiration c) (cleanupTime c)
    (<[key := mkValue now_create
         (if 0 <? effective_duration c duration
          then UnixNano (Add now_exp (effective_duration c duration)) else 0)
         value]> (data c)).
Proof. done. Qed.

Lemma bind_exec {A B} (m : Op A) (k : A → Op B) c :
  exec (bind m k) c = exec (k (eval m c)) (exec m c).
Proof. unfold exec, eval, bind. by destruct (m c). Qed.

Lemma bind_eval {A B} (m : Op A) (k : A → Op B) c :
  eval (bind m k) c = eval (k (eval m c)) (exec m c).
Proof. unfold exec, eval, bind. by destruct (m c). Qed.

Lemma Delete_absent key c :
  data c !! key = None → Delete key c = (Some KeyNotFound, c).
Proof. intros H. unfold Delete, bind, get_data, ret. by rewrite H. Qed.

Lemma Delete_present key c item :
  data c !! key = Some item →
  Delete key c =
  (None, mkCache (defaultExpiration c) (cleanupTime c) (delete key (data c))).
Proof. intros H. unfold Delete, bind, get_data, ret, map_delete. by rewrite H. Qed.

End methods.

Section sweeper.

Implicit Types (c : Cache) (k : string) (i : Value) (keys : list string)
  (clock : string → Time) (order : RangeOrder).

Lemma expiredKeys_loop_filter clock (entries : list (string * Value)) keys :
  expiredKeys_loop clock entries keys = keys ++ (filter (swept clock) entries).*1.
Proof.
  revert keys. induction entries as [|[k i] entries IH]; intros keys; simpl.
  - by rewrite app_nil_r.
  - rewrite filter_cons. unfold swept at 1. simpl.
    destruct (decide (expired_at (clock k) i)) as [He|He].
    + apply expired_test_true in He. rewrite He, IH. simpl.
      by rewrite <- app_assoc.
    + apply expired_test_false in He. by rewrite He, IH.
Qed.

Lemma elem_of_expiredKeys order clock c k :
  k ∈ eval (expiredKeys order clock) c ↔
  ∃ i, data c !! k = Some i ∧ expired_at (clock k) i.
Proof.
  unfold eval, expiredKeys, bind, get_data, ret. simpl.
  rewrite expiredKeys_loop_filter. simpl. rewrite list_elem_of_fmap. split.
  - intros [[k' i] [-> [He Hin]%list_elem_of_filter]].
    rewrite (visit_perm order) in Hin.
    apply elem_of_map_to_list in Hin. eauto.
  - intros (i & Hk & He). exists (k, i). split; [done|].
    apply list_elem_of_filter. split; [done|].
    rewrite (visit_perm order). by apply elem_of_map_to_list.
Qed.

Lemma expiredKeys_exec order clock c : exec (expiredKeys order clock) c = c.
Proof. done. Qed.

Lemma clearValues_fields keys c :
  defaultExpiration (exec (clearValues keys) c) = defaultExpiration c ∧
  cleanupTime (exec (clearValues keys) c) = cleanupTime c.
Proof.
  revert c. induction keys as [|k keys IH]; intros c; [done|].
  simpl. rewrite bind_exec. by destruct (IH (exec (map_delete k) c)) as [-> ->].
Qed.

Lemma clearValues_lookup keys c k :
  data (exec (clearValues keys) c) !! k =
  if decide (k ∈ keys) then None else data c !! k.
Proof.
  revert c. induction keys as [|k' keys IH]; intros c.
  - by destruct (decide (k ∈ [])) as [Hin%not_elem_of_nil|].
  - cbn [clearValues]. rewrite bind_exec, IH.
    change (data (exec (map_delete k') c)) with (delete k' (data c)).
    destruct (decide (k ∈ keys)) as [Hin|Hin].
    + by rewrite decide_True by by right.
    + destruct (decide (k = k')) as [->|Hne].
      * rewrite lookup_delete_eq. by rewrite decide_True by left.
      * rewrite lookup_delete_ne by done.
        rewrite decide_False; [done|]. by intros [?|?]%elem_of_cons.
Qed.

(** The guard [len(keys) != 0] of [gC] only skips a call of
    [clearValues] that would do nothing. *)
Lemma gC_tick_exec order clock c :
  exec (gC_tick order clock) c =
  exec (let* keys := expiredKeys order clock in clearValues keys) c.
Proof.
  unfold gC_tick. rewrite !bind_exec.
  by destruct (eval (expiredKeys order clock) c).
Qed.

Lemma sweep_lookup order clock c k :
  data (exec (let* keys := expiredKeys order clock in clearValues keys) c) !! k =
  match data c !! k with
  | Some i => if decide (expired_at (clock k) i) then None else Some i
  | None => None
  end.
Proof.
  rewrite bind_exec, clearValues_lookup, expiredKeys_exec.
  destruct (decide (k ∈ _)) as [Hin|Hin].
  - apply elem_of_expiredKeys in Hin as (i & -> & He). by rewrite decide_True.
  - destruct (data c !! k) as [i|] eqn:Hk; [|done].
    rewrite decide_False; [done|]. intros He. apply Hin.
    apply elem_of_expiredKeys. eauto.
Qed.

Lemma sweep_data order clock c :
  data (exec (let* keys := expiredKeys order clock in clearValues keys) c) =
  filter (λ e, ¬ swept clock e) (data c).
Proof.
  apply map_eq. intros k. rewrite sweep_lookup.
  destruct (data c !! k) as [i|] eqn:Hk.
  - destruct (decide (expired_at (clock k) i)) as [He|He]; symmetry.
    + apply map_lookup_filter_None. right. intros i' Hi'. simplify_eq.
      unfold swept. simpl. tauto.
    + apply map_lookup_filter_Some. done.
  - symmetry. apply map_lookup_filter_None. by left.
Qed.

Lemma gC_tick_keeps order clock c k i :
  data c !! k = Some i → never_expires i →
  data (exec (gC_tick order clock) c) !! k = Some i.
Proof.
  intros Hk Hi. rewrite gC_tick_exec, sweep_lookup, Hk.
  rewrite decide_False; [done|]. by apply never_expires_not_expired.
Qed.

Lemma gC_ticks_keeps ticks c k i :
  data c !! k = Some i → never_expires i →
  data (exec (gC_ticks ticks) c) !! k = Some i.
Proof.
  revert c. induction ticks as [|[order clock] ticks IH]; intros c Hk Hi.
  - done.
  - simpl. rewrite bind_exec. apply IH; [|done]. by apply gC_tick_keeps.
Qed.

End sweeper.

(** ** The properties of the specification *)

Section read_path.

Implicit Types (c : Cache) (key value v : string) (item : Value) (now : Time).

(** C1, as stated: an entry that [Get] returns has no expiration or an
    expiration strictly after the instant of the test.  It fails at the
    very instant of expiration: ten milliseconds after
    [Set("a", "1", 10ms)] the clock equals the expiration, and [Get]
    still returns the entry. *)
Lemma Get_found_strictly_live_counterexample :
  data cache_a_10ms !! "a"%string
    = Some (mkValue T0 (T0 + 10 * Millisecond) "1") ∧
  eval (Get "a" (T0 + 10 * Millisecond)) cache_a_10ms = ("1"%string, true) ∧
  ¬ (T0 + 10 * Millisecond ≤ 0) ∧
  ¬ (UnixNano (T0 + 10 * Millisecond) < T0 + 10 * Millisecond) ∧
  ¬ Get_found_strictly_live.
Proof.
  split; [by vm_compute|]. split; [by vm_compute|].
  split; [by vm_compute|]. split; [by vm_compute|].
  intros H.
  destruct (H cache_a_10ms "a"%string (T0 + 10 * Millisecond) "1"%string)
    as (item & Hitem & _ & Hlive); [by vm_compute|].
  vm_compute in Hitem. injection Hitem as <-.
  vm_compute in Hlive. by destruct Hlive as [Hle|Hlt].
Qed.

(** C1, amended: whenever [Get key] returns with found = true, the
    entry stored under [key] carries the returned value and either has
    no expiration (sentinel [Expiration <= 0]) or the instant of the
    test is not past its expiration (now <= expiresAt): an entry whose
    expiration is strictly past is never returned as live. *)
Theorem Get_found_not_stale c key now v :
  eval (Get key now) c = (v, true) →
  ∃ item, data c !! key = Some item ∧ Value_ item = v ∧
    (Expiration item ≤ 0 ∨ UnixNano now ≤ Expiration item) ∧
    ¬ expired_at now item.
Proof.
  intros (item & Hitem & Hv & He)%Get_found_inv.
  exists item. repeat split; try done.
  unfold expired_at in He. lia.
Qed.

Lemma Get_found_not_stale_witness :
  ∃ item, data cache_a_10ms !! "a"%string = Some item ∧ Value_ item = "1"%string ∧
    (Expiration item ≤ 0 ∨ UnixNano (T0 + 10 * Millisecond) ≤ Expiration item) ∧
    ¬ expired_at (T0 + 10 * Millisecond) item.
Proof. apply (Get_found_not_stale cache_a_10ms). vm_compute. reflexivity. Defined.

(** C3: [Get key] returns found = false when [key] is absent from the
    map, and when the stored entry has a finite expiration
    ([Expiration > 0]) that the clock is strictly past; as long as the
    clock is not past the expiration, it returns the stored value with
    found = true. *)
Theorem Get_spec c key now :
  (data c !! key = None → eval (Get key now) c = (""%string, false)) ∧
  (∀ item, data c !! key = Some item →
     0 < Expiration item → Expiration item < UnixNano now →
     eval (Get key now) c = (""%string, false)) ∧
  (∀ item, data c !! key = Some item →
     UnixNano now ≤ Expiration item →
     eval (Get key now) c = (Value_ item, true)).
Proof.
  split; [apply Get_absent|]. split; intros item Hitem.
  - intros H0 Hpast. by apply (Get_expired _ _ _ item).
  - intros Hle. apply Get_live; [done|]. unfold expired_at. lia.
Qed.

Lemma Get_spec_witness :
  eval (Get "b" T0) cache_a_10ms = (""%string, false) ∧
  eval (Get "a" (T0 + 15 * Millisecond)) cache_a_10ms = (""%string, false) ∧
  eval (Get "a" (T0 + 5 * Millisecond)) cache_a_10ms = ("1"%string, true).
Proof.
  split; [|split].
  - apply (proj1 (Get_spec cache_a_10ms "b" T0)). by vm_compute.
  - apply (proj1 (proj2 (Get_spec cache_a_10ms "a" (T0 + 15 * Millisecond)))
             (mkValue T0 (T0 + 10 * Millisecond) "1")); by vm_compute.
  - apply (proj2 (proj2 (Get_spec cache_a_10ms "a" (T0 + 5 * Millisecond)))
             (mkValue T0 (T0 + 10 * Millisecond) "1")); by vm_compute.
Defined.

(** C8: [Get] leaves the cache as it found it: the same map, so every
    entry present before the call, an expired one that [Get] reports
    as not found included, is present after it with the same value,
    creation time and expiration. *)
Theorem Get_preserves_cache c key now :
  exec (Get key now) c = c ∧
  (∀ k item, data c !! k = Some item →
     data (exec (Get key now) c) !! k = Some item) ∧
  (∀ item, data c !! key = Some item → expired_at now item →
     eval (Get key now) c = (""%string, false) ∧
     data (exec (Get key now) c) !! key = Some item).
Proof.
  rewrite Get_exec. repeat split; try done.
  by apply (Get_expired _ _ _ item).
Qed.

Lemma Get_preserves_cache_witness :
  eval (Get "a" (T0 + 15 * Millisecond)) cache_a_10ms = (""%string, false) ∧
  data (exec (Get "a" (T0 + 15 * Millisecond)) cache_a_10ms) !! "a"%string
    = Some (mkValue T0 (T0 + 10 * Millisecond) "1").
Proof.
  apply (proj2 (proj2 (Get_preserves_cache cache_a_10ms "a" (T0 + 15 * Millisecond)))).
  - by vm_compute.
  - by vm_compute.
Defined.

End read_path.

Section write_path.

Implicit Types (c : Cache) (key value : string) (d : Duration)
  (now now_exp now_create : Time).

(** What [Set] stores, by the sign of the effective duration. *)
Lemma Set_lookup_expiring key value d now_exp now_create c :
  0 < effective_duration c d →
  data (exec (Set_ key value d now_exp now_create) c) !! key =
  Some (mkValue now_create (UnixNano (Add now_exp (effective_duration c d))) value).
Proof.
  intros Hd%Z.ltb_lt. rewrite Set_exec, Hd. apply lookup_insert_eq.
Qed.

Lemma Set_lookup_sentinel key value d now_exp now_create c :
  effective_duration c d ≤ 0 →
  data (exec (Set_ key value d now_exp now_create) c) !! key =
  Some (mkValue now_create 0 value).
Proof.
  intros Hd%Z.ltb_ge. rewrite Set_exec, Hd. apply lookup_insert_eq.
Qed.

Lemma Set_then_Get key value d now_exp now_create now c :
  eval (Set_ key value d now_exp now_create >> Get key now) c =
  eval (Get key now) (exec (Set_ key value d now_exp now_create) c).
Proof. by rewrite bind_eval. Qed.

(** An entry with the sentinel is found by [Get] at every instant,
    whatever the sweeper did in between. *)
Lemma sentinel_entry_stays key value now_create c :
  data c !! key = Some (mkValue now_create 0 value) →
  ∀ ticks now, eval (Get key now) (exec (gC_ticks ticks) c) = (value, true).
Proof.
  intros Hk ticks now.
  apply (Get_live _ _ _ (mkValue now_create 0 value)).
  - apply gC_ticks_keeps; [done|]. unfold never_expires. simpl. lia.
  - apply never_expires_not_expired. unfold never_expires. simpl. lia.
Qed.

(** C2: on a cache whose default expiration gives no finite lifetime
    ([defaultExpiration <= 0]), [Set k v 0] followed immediately by
    [Get k] returns [(v, true)], whatever the clock reads. *)
Theorem Set_Get_roundtrip c key value now_exp now_create now :
  defaultExpiration c ≤ 0 →
  eval (Set_ key value 0 now_exp now_create >> Get key now) c = (value, true).
Proof.
  intros Hd. rewrite Set_then_Get.
  apply (sentinel_entry_stays key value now_create _) with (ticks := []).
  by apply Set_lookup_sentinel.
Qed.

Lemma Set_Get_roundtrip_witness :
  eval (Set_ "a" "1" 0 T0 T0 >> Get "a" T0) (CacheCreate 0 0) = ("1"%string, true).
Proof. apply Set_Get_roundtrip. simpl. lia. Defined.

(** C5: [Set key value 0] uses the default expiration of the cache as
    its duration.  When that is positive, the entry created has
    creation time now and expiration [time.Now().Add(defaultExpiration)]
    in Unix nanoseconds, which is now + defaultExpiration whenever that
    instant fits the [int64] of [UnixNano]; so with
    [defaultExpiration = 20ms], on a clock that reads instants from the
    epoch on that [UnixNano] represents, a [Get] 25ms or more after the
    [Set] returns found = false. *)
Theorem Set_zero_uses_defaultExpiration c key value now_exp now_create :
  0 < defaultExpiration c →
  let c' := exec (Set_ key value 0 now_exp now_create) c in
  effective_duration c 0 = defaultExpiration c ∧
  data c' !! key =
    Some (mkValue now_create
            (UnixNano (Add now_exp (defaultExpiration c))) value) ∧
  (now_exp + defaultExpiration c ≤ int64_max →
   int64_min ≤ now_exp →
   data c' !! key =
     Some (mkValue now_create (now_exp + defaultExpiration c) value)) ∧
  (defaultExpiration c = 20 * Millisecond →
   0 ≤ now_exp →
   ∀ now, now_exp + 25 * Millisecond ≤ now → now ≤ int64_max →
     eval (Get key now) c' = (""%string, false)).
Proof.
  intros Hd c'.
  assert (Hlook : data c' !! key = Some (mkValue now_create
            (UnixNano (Add now_exp (defaultExpiration c))) value)).
  { subst c'. by rewrite Set_lookup_expiring. }
  split; [done|]. split; [done|]. split.
  - intros Hmax Hmin. rewrite Hlook. unfold Add.
    rewrite UnixNano_in_range; [done|]. lia.
  - intros H20 Hepoch now Hlate Hmax.
    apply (Get_expired _ _ _ _ Hlook). unfold expired_at, Add. simpl.
    unfold Millisecond, int64_max in *.
    rewrite !UnixNano_in_range; unfold int64_min, int64_max; lia.
Qed.

Lemma Set_zero_uses_defaultExpiration_witness :
  data cache_a_default_20ms !! "a"%string
    = Some (mkValue T0 (T0 + 20 * Millisecond) "1") ∧
  eval (Get "a" (T0 + 25 * Millisecond)) cache_a_default_20ms
    = (""%string, false).
Proof.
  destruct (Set_zero_uses_defaultExpiration
              (CacheCreate (20 * Millisecond) 0) "a" "1" T0 T0)
    as (_ & _ & Hexp & Hget); [by vm_compute|].
  split.
  - apply Hexp; by vm_compute.
  - apply Hget; by vm_compute.
Defined.

(** C6: on a cache with [defaultExpiration = 0], [Set key value 0]
    creates an entry with the sentinel 0 for its expiration, and
    [Get key] returns [(value, true)] at every instant, also after any
    number of iterations of the sweeper. *)
Theorem Set_zero_default_zero_never_expires c key value now_exp now_create :
  defaultExpiration c = 0 →
  let c' := exec (Set_ key value 0 now_exp now_create) c in
  data c' !! key = Some (mkValue now_create 0 value) ∧
  (∀ now, eval (Get key now) c' = (value, true)) ∧
  (∀ ticks now, eval (Get key now) (exec (gC_ticks ticks) c') = (value, true)).
Proof.
  intros Hd c'.
  assert (Hlook : data c' !! key = Some (mkValue now_create 0 value)).
  { subst c'. apply Set_lookup_sentinel. unfold effective_duration. simpl. lia. }
  split; [done|]. split.
  - intros now. by apply (sentinel_entry_stays _ _ _ _ Hlook []).
  - by apply sentinel_entry_stays with now_create.
Qed.

Lemma Set_zero_default_zero_never_expires_witness :
  let c' := exec (Set_ "a" "1" 0 T0 T0) (CacheCreate 0 (10 * Millisecond)) in
  data c' !! "a"%string = Some (mkValue T0 0 "1") ∧
  (∀ now, eval (Get "a" now) c' = ("1"%string, true)) ∧
  (∀ ticks now, eval (Get "a" now) (exec (gC_ticks ticks) c') = ("1"%string, true)).
Proof.
  apply (Set_zero_default_zero_never_expires (CacheCreate 0 (10 * Millisecond))).
  reflexivity.
Defined.

(** C10: for a strictly negative duration [d], [Set key value d] keeps
    [d] instead of the default expiration and stores the sentinel
    [Expiration = 0]; [Get key] then finds the entry at every instant,
    [expiredKeys] never lists [key], and the entry outlives any number
    of iterations of the sweeper. *)
Theorem Set_negative_never_expires c key value d now_exp now_create :
  d < 0 →
  let c' := exec (Set_ key value d now_exp now_create) c in
  effective_duration c d = d ∧
  data c' !! key = Some (mkValue now_create 0 value) ∧
  (∀ now, eval (Get key now) c' = (value, true)) ∧
  (∀ order clock, key ∉ eval (expiredKeys order clock) c') ∧
  (∀ ticks now, eval (Get key now) (exec (gC_ticks ticks) c') = (value, true)).
Proof.
  intros Hd c'.
  assert (Heff : effective_duration c d = d).
  { unfold effective_duration. by rewrite (proj2 (Z.eqb_neq d 0)) by lia. }
  assert (Hlook : data c' !! key = Some (mkValue now_create 0 value)).
  { subst c'. apply Set_lookup_sentinel. lia. }
  split; [done|]. split; [done|]. split; [|split].
  - intros now. by apply (sentinel_entry_stays _ _ _ _ Hlook []).
  - intros order clock (i & Hi & He)%elem_of_expiredKeys.
    rewrite Hlook in Hi. injection Hi as <-.
    unfold expired_at in He. simpl in He. lia.
  - by apply sentinel_entry_stays with now_create.
Qed.

Lemma Set_negative_never_expires_witness :
  let c' := exec (Set_ "a" "1" (-1) T0 T0) (CacheCreate (20 * Millisecond) 0) in
  effective_duration (CacheCreate (20 * Millisecond) 0) (-1) = -1 ∧
  data c' !! "a"%string = Some (mkValue T0 0 "1") ∧
  (∀ now, eval (Get "a" now) c' = ("1"%string, true)) ∧
  (∀ order clock, "a"%string ∉ eval (expiredKeys order clock) c') ∧
  (∀ ticks now, eval (Get "a" now) (exec (gC_ticks ticks) c') = ("1"%string, true)).
Proof.
  apply (Set_negative_never_expires (CacheCreate (20 * Millisecond) 0)). lia.
Defined.

End write_path.

Section delete_path.

Implicit Types (c : Cache) (key k : string) (item : Value) (now : Time).

Lemma Delete_eval key c :
  eval (Delete key) c =
  match data c !! key with None => Some KeyNotFound | Some _ => None end.
Proof.
  destruct (data c !! key) as [item|] eqn:H.
  - unfold eval. by rewrite (Delete_present _ _ item H).
  - unfold eval. by rewrite (Delete_absent _ _ H).
Qed.

(** C4: [Delete key] returns the error "Key not found" exactly when
    [key] is absent from the map, and then leaves the cache unchanged;
    when [key] is present it returns [nil] and removes that entry and
    no other, so that a [Get key] afterwards returns found = false. *)
Theorem Delete_spec c key :
  (eval (Delete key) c = Some KeyNotFound ↔ data c !! key = None) ∧
  (eval (Delete key) c = None ↔ is_Some (data c !! key)) ∧
  (data c !! key = None → exec (Delete key) c = c) ∧
  (is_Some (data c !! key) →
     eval (Delete key) c = None ∧
     exec (Delete key) c =
       mkCache (defaultExpiration c) (cleanupTime c) (delete key (data c)) ∧
     data (exec (Delete key) c) !! key = None ∧
     (∀ k, k ≠ key → data (exec (Delete key) c) !! k = data c !! k) ∧
     (∀ now, eval (Get key now) (exec (Delete key) c) = (""%string, false))).
Proof.
  rewrite Delete_eval. destruct (data c !! key) as [item|] eqn:H.
  - assert (He : exec (Delete key) c =
      mkCache (defaultExpiration c) (cleanupTime c) (delete key (data c))).
    { unfold exec. by rewrite (Delete_present _ _ item H). }
    split; [done|]. split; [by split; eauto|]. split; [done|].
    intros _. rewrite He. simpl.
    split; [done|]. split; [done|]. split; [apply lookup_delete_eq|].
    split.
    + intros k Hk. by apply lookup_delete_ne.
    + intros now. apply Get_absent. apply lookup_delete_eq.
  - split; [done|]. split; [by split; [|intros [? ?]]|]. split.
    + intros _. unfold exec. by rewrite (Delete_absent _ _ H).
    + by intros [? ?].
Qed.

Lemma Delete_spec_witness :
  eval (Delete "missing") (CacheCreate 0 0) = Some KeyNotFound ∧
  exec (Delete "missing") (CacheCreate 0 0) = CacheCreate 0 0 ∧
  (let c := exec (Set_ "a" "1" 0 T0 T0) (CacheCreate 0 0) in
   eval (Delete "a") c = None ∧
   ∀ now, eval (Get "a" now) (exec (Delete "a") c) = (""%string, false)).
Proof.
  split; [|split].
  - apply (proj1 (Delete_spec (CacheCreate 0 0) "missing")). by vm_compute.
  - apply (proj1 (proj2 (proj2 (Delete_spec (CacheCreate 0 0) "missing")))).
    by vm_compute.
  - intros c.
    destruct (proj2 (proj2 (proj2 (Delete_spec c "a"))))
      as (Hnil & _ & _ & _ & Hget); [vm_compute; by eexists|].
    by split.
Defined.

(** C9: for a key whose entry is in the map but expired, [Get key]
    returns found = false while [Delete key] on the same cache returns
    [nil] and removes the entry; what [Delete] returns is decided by
    the presence of the key alone, so equally for two caches that
    differ in the expiration stored under the key. *)
Theorem Delete_ignores_expiration c key item now :
  data c !! key = Some item → expired_at now item →
  eval (Get key now) c = (""%string, false) ∧
  eval (Delete key) c = None ∧
  data (exec (Delete key) c) = delete key (data c) ∧
  data (exec (Delete key) c) !! key = None ∧
  (∀ c', (is_Some (data c' !! key) ↔ is_Some (data c !! key)) →
     eval (Delete key) c' = eval (Delete key) c).
Proof.
  intros H He. split; [by apply (Get_expired _ _ _ item)|].
  rewrite Delete_eval, H. split; [done|].
  unfold exec. rewrite (Delete_present _ _ item H). simpl.
  split; [done|]. split; [apply lookup_delete_eq|].
  intros c' Hc'. rewrite Delete_eval.
  destruct (data c' !! key) as [item'|]; [done|].
  destruct (proj2 Hc') as [? ?]; [by eauto|done].
Qed.

Lemma Delete_ignores_expiration_witness :
  eval (Get "a" (T0 + 15 * Millisecond)) cache_a_10ms = (""%string, false) ∧
  eval (Delete "a") cache_a_10ms = None ∧
  data (exec (Delete "a") cache_a_10ms) = delete "a"%string (data cache_a_10ms) ∧
  data (exec (Delete "a") cache_a_10ms) !! "a"%string = None ∧
  (∀ c', (is_Some (data c' !! "a"%string)
            ↔ is_Some (data cache_a_10ms !! "a"%string)) →
     eval (Delete "a") c' = eval (Delete "a") cache_a_10ms).
Proof.
  apply (Delete_ignores_expiration cache_a_10ms "a"
           (mkValue T0 (T0 + 10 * Millisecond) "1")).
  - by vm_compute.
  - by vm_compute.
Defined.

End delete_path.

Section sweeper_tick.

Implicit Types (c : Cache) (k : string) (i : Value)
  (clock : string → Time) (order : RangeOrder).

(** C7: one iteration of the sweeper, [expiredKeys] followed by
    [clearValues] with nothing in between (and equally behind the
    guard [len(keys) != 0] of [gC]), whatever the order in which the
    map is ranged over, removes from the map exactly the entries whose
    expiration is finite ([Expiration > 0]) and strictly past when the
    scan tests them, and leaves every other entry, every entry that
    never expires among them, as it was. *)
Theorem sweeper_tick_removes_exactly_expired order clock c :
  let c' := exec (let* keys := expiredKeys order clock in clearValues keys) c in
  exec (gC_tick order clock) c = c' ∧
  defaultExpiration c' = defaultExpiration c ∧
  cleanupTime c' = cleanupTime c ∧
  data c' = filter (λ e, ¬ swept clock e) (data c) ∧
  (∀ k, data c' !! k = None ↔
        data c !! k = None ∨ ∃ i, data c !! k = Some i ∧ expired_at (clock k) i) ∧
  (∀ k i, data c' !! k = Some i ↔
          data c !! k = Some i ∧ ¬ expired_at (clock k) i) ∧
  (∀ k i, data c !! k = Some i → never_expires i → data c' !! k = Some i).
Proof.
  intros c'. split; [apply gC_tick_exec|].
  assert (Hlook := sweep_lookup order clock c). fold c' in Hlook.
  split; [|split].
  - subst c'. rewrite bind_exec. apply clearValues_fields.
  - subst c'. rewrite bind_exec. apply clearValues_fields.
  - split; [apply sweep_data|]. split; [|split].
    + intros k. rewrite Hlook.
      destruct (data c !! k) as [i|]; [|by split; [left|]].
      destruct (decide (expired_at (clock k) i)) as [He|He].
      * split; [intros _; right; by exists i|done].
      * split; [done|]. by intros [?|(i' & [= <-] & ?)].
    + intros k i. rewrite Hlook.
      destruct (data c !! k) as [i'|]; [|by split; [|intros [? _]]].
      destruct (decide (expired_at (clock k) i')) as [He|He].
      * split; [done|]. by intros [[= <-] ?].
      * split; [by intros [= <-]|by intros [? _]].
    + intros k i Hk Hi. rewrite Hlook, Hk.
      rewrite decide_False; [done|]. by apply never_expires_not_expired.
Qed.

Lemma sweeper_tick_removes_exactly_expired_witness :
  let c' := exec (gC_tick order_reverse (λ _, T0 + 15 * Millisecond)) cache_abc in
  data c' !! "a"%string = None ∧
  data c' !! "b"%string = Some (mkValue T0 0 "2") ∧
  data c' !! "c"%string = Some (mkValue T0 (T0 + 30 * Millisecond) "3").
Proof.
  destruct (sweeper_tick_removes_exactly_expired
              order_reverse (λ _, T0 + 15 * Millisecond) cache_abc)
    as (Htick & _ & _ & _ & HNone & HSome & Hnever).
  intros c'. subst c'. rewrite Htick. split; [|split].
  - apply HNone. right. exists (mkValue T0 (T0 + 10 * Millisecond) "1").
    by vm_compute.
  - apply Hnever; by vm_compute.
  - apply HSome. split; [by vm_compute|].
    intros [_ Hpast]. by vm_compute in Hpast.
Defined.

End sweeper_tick.

(** ** Further properties of the methods *)

Section more_lemmas.

Implicit Types (c : Cache) (key k value : string) (item i : Value) (now : Time).

Lemma Cache_eq c c' :
  defaultExpiration c = defaultExpiration c' → cleanupTime c = cleanupTime c' →
  data c = data c' → c = c'.
Proof. destruct c, c'. simpl. by intros -> -> ->. Qed.

(** What [Get] answers depends on the entry under the key only. *)
Lemma Get_eval key now c :
  eval (Get key now) c =
  match data c !! key with
  | None => (""%string, false)
  | Some item =>
      if decide (expired_at now item) then (""%string, false)
      else (Value_ item, true)
  end.
Proof.
  destruct (data c !! key) as [item|] eqn:H; [|by apply Get_absent].
  destruct (decide (expired_at now item)).
  - by apply (Get_expired _ _ _ item).
  - by apply Get_live.
Qed.

Lemma Get_eval_ext key now c c' :
  data c !! key = data c' !! key → eval (Get key now) c = eval (Get key now) c'.
Proof. intros H. by rewrite !Get_eval, H. Qed.

Lemma Set_written key value d now_exp now_create c :
  exec (Set_ key value d now_exp now_create) c =
  mkCache (defaultExpiration c) (cleanupTime c)
    (<[key := written (defaultExpiration c) value d now_exp now_create]> (data c)).
Proof. done. Qed.

Lemma gC_tick_fields order clock c :
  defaultExpiration (exec (gC_tick order clock) c) = defaultExpiration c ∧
  cleanupTime (exec (gC_tick order clock) c) = cleanupTime c.
Proof.
  rewrite gC_tick_exec, bind_exec. apply clearValues_fields.
Qed.

Lemma gC_tick_lookup order clock c k :
  data (exec (gC_tick order clock) c) !! k =
  match data c !! k with
  | Some i => if decide (expired_at (clock k) i) then None else Some i
  | None => None
  end.
Proof. rewrite gC_tick_exec. apply sweep_lookup. Qed.

Lemma Delete_exec key c :
  exec (Delete key) c =
  match data c !! key with
  | Some _ => mkCache (defaultExpiration c) (cleanupTime c) (delete key (data c))
  | None => c
  end.
Proof.
  unfold exec. destruct (data c !! key) as [item|] eqn:H.
  - by rewrite (Delete_present _ _ item H).
  - by rewrite (Delete_absent _ _ H).
Qed.

Lemma then_ret_exec {A} (m : Op A) c : exec (m >> ret tt) c = exec m c.
Proof. by rewrite bind_exec. Qed.

End more_lemmas.

Section set_composition.

Implicit Types (c : Cache) (key k value : string) (d : Duration)
  (now now_exp now_create : Time).

(** X1: the last [Set] of a key wins: two [Set]s of the same key in a
    row leave the cache exactly as the second alone does, value,
    creation time and expiration alike. *)
Theorem Set_Set_same_key c key value1 d1 t1 t1' value2 d2 t2 t2' :
  exec (Set_ key value1 d1 t1 t1' >> Set_ key value2 d2 t2 t2') c =
  exec (Set_ key value2 d2 t2 t2') c.
Proof.
  rewrite bind_exec, !Set_written. simpl. by rewrite insert_insert_eq.
Qed.

(** X2: [Set] of one key leaves every other key alone: the entry stored
    under a different key, and what [Get] answers for it at any instant,
    are the same before and after; the two configuration fields are
    unchanged as well. *)
Theorem Set_other_key c key value d now_exp now_create k :
  k ≠ key →
  let c' := exec (Set_ key value d now_exp now_create) c in
  data c' !! k = data c !! k ∧
  (∀ now, eval (Get k now) c' = eval (Get k now) c) ∧
  defaultExpiration c' = defaultExpiration c ∧
  cleanupTime c' = cleanupTime c.
Proof.
  intros Hk c'.
  assert (Hlook : data c' !! k = data c !! k).
  { subst c'. rewrite Set_written. simpl. by apply lookup_insert_ne. }
  split; [done|]. split; [|done].
  intros now. by apply Get_eval_ext.
Qed.

Lemma Set_other_key_witness :
  let c' := exec (Set_ "b" "2" 0 T0 T0) cache_a_10ms in
  data c' !! "a"%string = data cache_a_10ms !! "a"%string ∧
  (∀ now, eval (Get "a" now) c' = eval (Get "a" now) cache_a_10ms) ∧
  defaultExpiration c' = defaultExpiration cache_a_10ms ∧
  cleanupTime c' = cleanupTime cache_a_10ms.
Proof. apply (Set_other_key cache_a_10ms "b" "2" 0 T0 T0 "a"). done. Defined.

(** X3: [Set]s of two different keys commute: in either order they
    leave the same cache. *)
Theorem Set_Set_commute c key1 value1 d1 t1 t1' key2 value2 d2 t2 t2' :
  key1 ≠ key2 →
  exec (Set_ key1 value1 d1 t1 t1' >> Set_ key2 value2 d2 t2 t2') c =
  exec (Set_ key2 value2 d2 t2 t2' >> Set_ key1 value1 d1 t1 t1') c.
Proof.
  intros Hk. rewrite !bind_exec, !Set_written. simpl.
  f_equal. by apply insert_insert_ne.
Qed.

Lemma Set_Set_commute_witness :
  exec (Set_ "a" "1" 0 T0 T0 >> Set_ "b" "2" (-1) T0 T0) (CacheCreate 0 0) =
  exec (Set_ "b" "2" (-1) T0 T0 >> Set_ "a" "1" 0 T0 T0) (CacheCreate 0 0).
Proof. apply Set_Set_commute. done. Defined.

(** X4: a positive duration given to [Set] overrides the default
    expiration, and the entry lives exactly until its expiration: on a
    clock from the epoch on whose readings and whose expiration instant
    fit [int64], [Get] returns the value at every instant up to and
    including [now_exp + d], and not found at every instant after it. *)
Theorem Set_positive_live_window c key value d now_exp now_create now :
  0 < d → 0 ≤ now_exp → now_exp + d ≤ int64_max →
  int64_min ≤ now → now ≤ int64_max →
  let c' := exec (Set_ key value d now_exp now_create) c in
  data c' !! key = Some (mkValue now_create (now_exp + d) value) ∧
  (now ≤ now_exp + d → eval (Get key now) c' = (value, true)) ∧
  (now_exp + d < now → eval (Get key now) c' = (""%string, false)).
Proof.
  intros Hd Hepoch Hfit Hmin Hmax c'.
  assert (Heff : effective_duration c d = d).
  { unfold effective_duration. by rewrite (proj2 (Z.eqb_neq d 0)) by lia. }
  assert (Hlook : data c' !! key = Some (mkValue now_create (now_exp + d) value)).
  { subst c'. rewrite Set_lookup_expiring by lia. rewrite Heff. unfold Add.
    rewrite UnixNano_in_range; [done|]. unfold int64_min, int64_max in *. lia. }
  split; [done|]. split; intros Hnow.
  - apply (Get_live _ _ _ _ Hlook). unfold expired_at. simpl.
    rewrite UnixNano_in_range by done. lia.
  - apply (Get_expired _ _ _ _ Hlook). unfold expired_at. simpl.
    rewrite UnixNano_in_range by done. lia.
Qed.

Lemma Set_positive_live_window_witness :
  let c' := exec (Set_ "a" "1" (10 * Millisecond) T0 T0)
                 (CacheCreate (20 * Millisecond) 0) in
  data c' !! "a"%string = Some (mkValue T0 (T0 + 10 * Millisecond) "1") ∧
  eval (Get "a" (T0 + 10 * Millisecond)) c' = ("1"%string, true) ∧
  eval (Get "a" (T0 + 10 * Millisecond + 1)) c' = (""%string, false).
Proof.
  split; [|split].
  - apply (Set_positive_live_window (CacheCreate (20 * Millisecond) 0)
             "a" "1" (10 * Millisecond) T0 T0 T0); by vm_compute.
  - apply (Set_positive_live_window (CacheCreate (20 * Millisecond) 0)
             "a" "1" (10 * Millisecond) T0 T0 (T0 + 10 * Millisecond));
      by vm_compute.
  - apply (Set_positive_live_window (CacheCreate (20 * Millisecond) 0)
             "a" "1" (10 * Millisecond) T0 T0 (T0 + 10 * Millisecond + 1));
      by vm_compute.
Defined.

(** X5: a positive duration that carries the expiration instant past
    the largest [int64] makes the entry immortal: the wrapped
    [UnixNano] is negative, so [Get] finds the entry at every instant
    and [expiredKeys] never lists the key. *)
Theorem Set_overflow_never_expires c key value d now_exp now_create :
  0 < d → d ≤ int64_max → now_exp ≤ int64_max → int64_max < now_exp + d →
  let c' := exec (Set_ key value d now_exp now_create) c in
  data c' !! key = Some (mkValue now_create (now_exp + d - 2 ^ 64) value) ∧
  now_exp + d - 2 ^ 64 < 0 ∧
  (∀ now, eval (Get key now) c' = (value, true)) ∧
  (∀ order clock, key ∉ eval (expiredKeys order clock) c').
Proof.
  intros Hd Hdmax Hnmax Hover c'.
  assert (Heff : effective_duration c d = d).
  { unfold effective_duration. by rewrite (proj2 (Z.eqb_neq d 0)) by lia. }
  assert (Hneg : now_exp + d - 2 ^ 64 < 0) by (unfold int64_max in *; lia).
  assert (Hlook : data c' !! key
                  = Some (mkValue now_create (now_exp + d - 2 ^ 64) value)).
  { subst c'. rewrite Set_lookup_expiring by lia. rewrite Heff.
    unfold Add, UnixNano, int64_wrap. do 2 f_equal.
    unfold int64_max in *.
    replace (now_exp + d + 2 ^ 63) with (now_exp + d - 2 ^ 63 + 1 * 2 ^ 64) by lia.
    rewrite Z.mod_add by lia. rewrite Z.mod_small; lia. }
  split; [done|]. split; [done|]. split.
  - intros now. apply (Get_live _ _ _ _ Hlook). unfold expired_at. simpl. lia.
  - intros order clock (i & Hi & He)%elem_of_expiredKeys.
    rewrite Hlook in Hi. injection Hi as <-.
    unfold expired_at in He. simpl in He. lia.
Qed.

Lemma Set_overflow_never_expires_witness :
  let c' := exec (Set_ "a" "1" int64_max T0 T0) (CacheCreate 0 0) in
  data c' !! "a"%string = Some (mkValue T0 (T0 + int64_max - 2 ^ 64) "1") ∧
  T0 + int64_max - 2 ^ 64 < 0 ∧
  (∀ now, eval (Get "a" now) c' = ("1"%string, true)) ∧
  (∀ order clock, "a"%string ∉ eval (expiredKeys order clock) c').
Proof.
  apply (Set_overflow_never_expires (CacheCreate 0 0) "a" "1" int64_max T0 T0);
    by vm_compute.
Defined.

End set_composition.

Section delete_composition.

Implicit Types (c : Cache) (key k value : string) (d : Duration)
  (now now_exp now_create : Time).

(** X6: [Set] of a key that the map does not hold, followed by [Delete]
    of that key, gives back the cache as it was, and the [Delete]
    returns [nil]. *)
Theorem Set_Delete_restores c key value d now_exp now_create :
  data c !! key = None →
  eval (Set_ key value d now_exp now_create >> Delete key) c = None ∧
  exec (Set_ key value d now_exp now_create >> Delete key) c = c.
Proof.
  intros Hk. rewrite bind_eval, bind_exec.
  assert (Hin : data (exec (Set_ key value d now_exp now_create) c) !! key
                = Some (written (defaultExpiration c) value d now_exp now_create)).
  { rewrite Set_written. apply lookup_insert_eq. }
  split.
  - rewrite Delete_eval. by rewrite Hin.
  - unfold exec at 1. rewrite (Delete_present _ _ _ Hin). simpl.
    apply Cache_eq; simpl; try done.
    rewrite delete_insert_eq. by apply delete_id.
Qed.

Lemma Set_Delete_restores_witness :
  eval (Set_ "b" "2" 0 T0 T0 >> Delete "b") cache_a_10ms = None ∧
  exec (Set_ "b" "2" 0 T0 T0 >> Delete "b") cache_a_10ms = cache_a_10ms.
Proof. apply Set_Delete_restores. by vm_compute. Defined.

(** X7: a second [Delete] of the same key always returns the error
    "Key not found", whether the first found the key or not, and
    changes nothing more. *)
Theorem Delete_Delete c key :
  eval (Delete key >> Delete key) c = Some KeyNotFound ∧
  exec (Delete key >> Delete key) c = exec (Delete key) c.
Proof.
  rewrite bind_eval, bind_exec.
  assert (Hgone : data (exec (Delete key) c) !! key = None).
  { destruct (data c !! key) as [item|] eqn:H.
    - unfold exec. rewrite (Delete_present _ _ item H). apply lookup_delete_eq.
    - unfold exec. by rewrite (Delete_absent _ _ H). }
  split.
  - rewrite Delete_eval. by rewrite Hgone.
  - unfold exec at 1. by rewrite (Delete_absent _ _ Hgone).
Qed.

(** X8: on the cache that [CacheCreate] returns, every [Get] answers not
    found, every [Delete] returns the error "Key not found",
    [expiredKeys] is empty and an iteration of the sweeper changes
    nothing; the two durations are the ones given. *)
Theorem CacheCreate_empty dflt cleanup key now order clock :
  let c := CacheCreate dflt cleanup in
  defaultExpiration c = dflt ∧ cleanupTime c = cleanup ∧
  eval (Get key now) c = (""%string, false) ∧
  eval (Delete key) c = Some KeyNotFound ∧
  exec (Delete key) c = c ∧
  eval (expiredKeys order clock) c = [] ∧
  exec (gC_tick order clock) c = c.
Proof.
  intros c. split; [done|]. split; [done|].
  assert (Hk : ∀ k, data c !! k = None) by (intros k; apply lookup_empty).
  assert (Hkeys : eval (expiredKeys order clock) c = []).
  { apply elem_of_nil_inv. intros k (i & Hi & _)%elem_of_expiredKeys.
    by rewrite Hk in Hi. }
  split; [by apply Get_absent|]. split; [by rewrite Delete_eval, Hk|].
  split; [unfold exec; by rewrite (Delete_absent _ _ (Hk key))|].
  split; [done|].
  unfold gC_tick. by rewrite bind_exec, Hkeys.
Qed.

End delete_composition.

Section expiry_over_time.

Implicit Types (c : Cache) (key k : string) (now : Time).

(** X9: on a cache that no call changes, the answer of [Get] for a key
    can only go from found to not found as the clock advances: found at
    an instant means found, with the same value, at every instant whose
    reading is not later. *)
Theorem Get_found_earlier c key now now' v :
  UnixNano now' ≤ UnixNano now →
  eval (Get key now) c = (v, true) →
  eval (Get key now') c = (v, true).
Proof.
  intros Hle (item & Hitem & <- & He)%Get_found_inv.
  apply Get_live; [done|]. unfold expired_at in *. lia.
Qed.

Lemma Get_found_earlier_witness :
  eval (Get "a" (T0 + 3 * Millisecond)) cache_a_10ms = ("1"%string, true).
Proof.
  apply (Get_found_earlier cache_a_10ms "a" (T0 + 10 * Millisecond));
    by vm_compute.
Defined.

End expiry_over_time.

Section sweeper_more.

Implicit Types (c : Cache) (key k : string) (i : Value) (keys : list string)
  (clock : string → Time) (order : RangeOrder) (now : Time).

(** X10: the slice that [expiredKeys] returns lists no key twice, lists
    only keys of the map, and is no longer than the map has entries,
    whatever the order of the iteration. *)
Theorem expiredKeys_NoDup order clock c :
  NoDup (eval (expiredKeys order clock) c) ∧
  (∀ k, k ∈ eval (expiredKeys order clock) c → is_Some (data c !! k)) ∧
  (length (eval (expiredKeys order clock) c) ≤ size (data c))%nat.
Proof.
  assert (Hsub : eval (expiredKeys order clock) c
                 `sublist_of` (order (map_to_list (data c))).*1).
  { unfold eval, expiredKeys, bind, get_data, ret. simpl.
    rewrite expiredKeys_loop_filter. simpl.
    apply fmap_sublist, sublist_filter. }
  split; [|split].
  - refine (sublist_NoDup _ _ _ Hsub).
    rewrite (visit_perm order). apply NoDup_fst_map_to_list.
  - intros k (i & Hi & _)%elem_of_expiredKeys. eauto.
  - etrans; [by apply sublist_length|].
    rewrite length_fmap, (visit_perm order). by rewrite length_map_to_list.
Qed.

(** X11: what [clearValues] leaves depends on which keys the slice
    holds, not on their order or on repetitions; and a slice of keys
    that the map does not hold changes nothing. *)
Theorem clearValues_set keys keys' c :
  (∀ k, k ∈ keys ↔ k ∈ keys') →
  exec (clearValues keys) c = exec (clearValues keys') c ∧
  ((∀ k, k ∈ keys → data c !! k = None) → exec (clearValues keys) c = c).
Proof.
  intros Hsame. split.
  - destruct (clearValues_fields keys c) as [Hd Hc].
    destruct (clearValues_fields keys' c) as [Hd' Hc'].
    apply Cache_eq; [congruence|congruence|].
    apply map_eq. intros k. rewrite !clearValues_lookup.
    destruct (decide (k ∈ keys)) as [Hin|Hin].
    + by rewrite decide_True by by apply Hsame.
    + rewrite decide_False; [done|]. intros Hin'. by apply Hin, Hsame.
  - intros Habsent. destruct (clearValues_fields keys c) as [Hd Hc].
    apply Cache_eq; [done|done|].
    apply map_eq. intros k. rewrite clearValues_lookup.
    destruct (decide (k ∈ keys)) as [Hin|Hin]; [|done].
    symmetry. by apply Habsent.
Qed.

Lemma clearValues_set_witness :
  exec (clearValues ["a"; "c"; "a"]%string) cache_abc
  = exec (clearValues ["c"; "a"]%string) cache_abc ∧
  ((∀ k, k ∈ ["a"; "c"; "a"]%string → data cache_abc !! k = None) →
   exec (clearValues ["a"; "c"; "a"]%string) cache_abc = cache_abc).
Proof.
  apply clearValues_set. intros k. rewrite !elem_of_cons, !elem_of_nil. tauto.
Defined.

(** X12: after an iteration of the sweeper, a scan with the same clock
    finds nothing expired, so a second iteration with that clock
    changes nothing. *)
Theorem gC_tick_idempotent order order' clock c :
  eval (expiredKeys order' clock) (exec (gC_tick order clock) c) = [] ∧
  exec (gC_tick order clock >> gC_tick order' clock) c
  = exec (gC_tick order clock) c.
Proof.
  assert (Hkeys : eval (expiredKeys order' clock) (exec (gC_tick order clock) c) = []).
  { apply elem_of_nil_inv. intros k (i & Hi & He)%elem_of_expiredKeys.
    rewrite gC_tick_lookup in Hi.
    destruct (data c !! k) as [i'|]; [|done].
    destruct (decide (expired_at (clock k) i')); [done|]. by simplify_eq. }
  split; [done|].
  rewrite bind_exec. unfold gC_tick at 1. by rewrite bind_exec, Hkeys.
Qed.

(** X13: the sweeper is invisible to readers: for a key that the scan
    tested at a reading not later than the one of [Get], [Get] answers
    after the iteration what it would have answered without it. *)
Theorem gC_tick_invisible_to_Get order clock c key now :
  UnixNano (clock key) ≤ UnixNano now →
  eval (Get key now) (exec (gC_tick order clock) c) = eval (Get key now) c.
Proof.
  intros Hle. rewrite !Get_eval, gC_tick_lookup.
  destruct (data c !! key) as [i|]; [|done].
  destruct (decide (expired_at (clock key) i)) as [He|He]; [|done].
  rewrite decide_True; [done|]. unfold expired_at in *. lia.
Qed.

Lemma gC_tick_invisible_to_Get_witness :
  eval (Get "a" (T0 + 20 * Millisecond))
       (exec (gC_tick order_reverse (λ _, T0 + 15 * Millisecond)) cache_abc)
  = eval (Get "a" (T0 + 20 * Millisecond)) cache_abc.
Proof. apply gC_tick_invisible_to_Get. by vm_compute. Defined.

(** X14: the race between the two phases of the sweeper: when a key is
    expired at the scan and another goroutine [Set]s it before
    [clearValues] runs, the iteration deletes the entry just written,
    whatever its duration, and [Get] no longer finds the key. *)
Theorem gC_tick_deletes_refreshed_key order clock c key i
    value d now_exp now_create :
  data c !! key = Some i → expired_at (clock key) i →
  let c' := exec (gC_tick_with_Set order clock key value d now_exp now_create) c in
  data c' !! key = None ∧
  (∀ now, eval (Get key now) c' = (""%string, false)).
Proof.
  intros Hk He c'.
  assert (Hin : key ∈ eval (expiredKeys order clock) c).
  { apply elem_of_expiredKeys. eauto. }
  assert (Hgone : data c' !! key = None).
  { subst c'. unfold gC_tick_with_Set. rewrite !bind_exec, expiredKeys_exec.
    destruct (eval (expiredKeys order clock) c) as [|k0 keys] eqn:Hkeys.
    - by apply elem_of_nil in Hin.
    - cbn [length Nat.eqb negb]. rewrite clearValues_lookup.
      by rewrite decide_True. }
  split; [done|]. intros now. by apply Get_absent.
Qed.

Lemma gC_tick_deletes_refreshed_key_witness :
  let c' := exec (gC_tick_with_Set order_id (λ _, T0 + 15 * Millisecond)
                    "a" "fresh" (-1) (T0 + 15 * Millisecond) (T0 + 15 * Millisecond))
                 cache_a_10ms in
  data c' !! "a"%string = None ∧
  (∀ now, eval (Get "a" now) c' = (""%string, false)).
Proof.
  apply (gC_tick_deletes_refreshed_key order_id (λ _, T0 + 15 * Millisecond)
           cache_a_10ms "a" (mkValue T0 (T0 + 10 * Millisecond) "1"));
    by vm_compute.
Defined.

(** X15: the sweeper only removes: after any number of iterations every
    entry of the map is an entry that was there before, unchanged, and
    the two configuration fields are as they were. *)
Theorem gC_ticks_only_remove ticks c :
  data (exec (gC_ticks ticks) c) ⊆ data c ∧
  defaultExpiration (exec (gC_ticks ticks) c) = defaultExpiration c ∧
  cleanupTime (exec (gC_ticks ticks) c) = cleanupTime c.
Proof.
  revert c. induction ticks as [|[order clock] ticks IH]; intros c.
  - done.
  - cbn [gC_ticks]. rewrite bind_exec.
    destruct (IH (exec (gC_tick order clock) c)) as (Hsub & -> & ->).
    split; [|apply gC_tick_fields].
    etrans; [exact Hsub|]. apply map_subseteq_spec. intros k i.
    rewrite gC_tick_lookup. destruct (data c !! k) as [i'|]; [|done].
    by destruct (decide (expired_at (clock k) i')).
Qed.

End sweeper_more.

Section histories.

Implicit Types (c : Cache) (key k : string) (i : Value) (a : call)
  (calls : list call).

Lemma do_call_fields a c :
  defaultExpiration (exec (do_call a) c) = defaultExpiration c ∧
  cleanupTime (exec (do_call a) c) = cleanupTime c.
Proof.
  destruct a as [key value d ne nc|key now|key|order clock]; simpl.
  - done.
  - by rewrite then_ret_exec, Get_exec.
  - rewrite then_ret_exec, Delete_exec. by destruct (data c !! key).
  - apply gC_tick_fields.
Qed.

Lemma do_call_lookup a c k i :
  data (exec (do_call a) c) !! k = Some i →
  data c !! k = Some i ∨
  ∃ value d ne nc, a = call_Set k value d ne nc ∧
    i = written (defaultExpiration c) value d ne nc.
Proof.
  destruct a as [key value d ne nc|key now|key|order clock]; cbn [do_call].
  - rewrite Set_written. simpl. destruct (decide (key = k)) as [->|Hne].
    + rewrite lookup_insert_eq. intros [= <-]. right. by eauto 6.
    + rewrite lookup_insert_ne by done. by left.
  - rewrite then_ret_exec, Get_exec. by left.
  - rewrite then_ret_exec, Delete_exec.
    destruct (data c !! key) as [item|] eqn:H; [|by left]. simpl.
    destruct (decide (key = k)) as [->|Hne].
    + by rewrite lookup_delete_eq.
    + rewrite lookup_delete_ne by done. by left.
  - rewrite gC_tick_lookup. destruct (data c !! k) as [i'|]; [|done].
    destruct (decide (expired_at (clock k) i')); [done|]. by left.
Qed.

Lemma do_call_keeps a c k i :
  ¬ writes_key k a → data c !! k = Some i → never_expires i →
  data (exec (do_call a) c) !! k = Some i.
Proof.
  destruct a as [key value d ne nc|key now|key|order clock];
    cbn [do_call writes_key]; intros Hw Hk Hi.
  - rewrite Set_written. simpl. by rewrite lookup_insert_ne.
  - by rewrite then_ret_exec, Get_exec.
  - rewrite then_ret_exec, Delete_exec.
    destruct (data c !! key) as [item|] eqn:H; [|done]. simpl.
    by rewrite lookup_delete_ne.
  - by apply gC_tick_keeps.
Qed.

(** X16: along any history of calls ([Set], [Get], [Delete] and
    iterations of the sweeper, in any order) the two configuration
    fields never change, and every entry of the map at the end was
    either there at the start, unchanged, or is exactly what a [Set] of
    that key in the history wrote. *)
Theorem run_provenance calls c :
  defaultExpiration (exec (run calls) c) = defaultExpiration c ∧
  cleanupTime (exec (run calls) c) = cleanupTime c ∧
  (∀ k i, data (exec (run calls) c) !! k = Some i →
     data c !! k = Some i ∨
     ∃ value d ne nc, call_Set k value d ne nc ∈ calls ∧
       i = written (defaultExpiration c) value d ne nc).
Proof.
  revert c. induction calls as [|a calls IH]; intros c.
  - split; [done|]. split; [done|]. intros k i Hk. by left.
  - cbn [run]. rewrite bind_exec.
    destruct (IH (exec (do_call a) c)) as (Hd & Hc & Hprov).
    destruct (do_call_fields a c) as [Hd' Hc'].
    split; [congruence|]. split; [congruence|].
    intros k i Hk. destruct (Hprov k i Hk) as [Hold|(value & d & ne & nc & Hin & ->)].
    + destruct (do_call_lookup a c k i Hold)
        as [Hstart|(value & d & ne & nc & -> & ->)]; [by left|].
      right. exists value, d, ne, nc. split; [left|done].
    + right. exists value, d, ne, nc. split; [by right|by rewrite Hd'].
Qed.

(** X17: an entry that never expires stays in the map, and [Get] finds
    it at every instant, through any history of calls that holds no
    [Set] and no [Delete] of its key: reads, writes of other keys and
    the sweeper leave it alone. *)
Theorem run_keeps_never_expiring calls c k i :
  Forall (λ a, ¬ writes_key k a) calls →
  data c !! k = Some i → never_expires i →
  data (exec (run calls) c) !! k = Some i ∧
  (∀ now, eval (Get k now) (exec (run calls) c) = (Value_ i, true)).
Proof.
  intros Hcalls Hk Hi.
  assert (Hend : data (exec (run calls) c) !! k = Some i).
  { revert c Hk. induction Hcalls as [|a calls Ha _ IH]; intros c Hk; [done|].
    cbn [run]. rewrite bind_exec. apply IH. by apply do_call_keeps. }
  split; [done|]. intros now. apply Get_live; [done|].
  by apply never_expires_not_expired.
Qed.

Lemma run_keeps_never_expiring_witness :
  let calls := [call_Get "b" (T0 + 40 * Millisecond);
                call_Set "a" "9" 0 (T0 + 40 * Millisecond) (T0 + 40 * Millisecond);
                call_gC order_reverse (λ _, T0 + 50 * Millisecond);
                call_Delete "c"] in
  data (exec (run calls) cache_abc) !! "b"%string = Some (mkValue T0 0 "2") ∧
  (∀ now, eval (Get "b" now) (exec (run calls) cache_abc) = ("2"%string, true)).
Proof.
  intros calls.
  apply (run_keeps_never_expiring calls cache_abc "b" (mkValue T0 0 "2")).
  - subst calls. repeat constructor; simpl; by intros ?.
  - by vm_compute.
  - by vm_compute.
Defined.

End histories.
